(** * rosella: the status-bar controller and the capture/transcribe worker

    A shallow embedding of [rosella.py].  The program has two kinds of
    control flow that share one [Scribe] object:

    - the main (AppKit) thread, which runs [_update_state] on every click of
      the status item and runs the callables queued with [AppHelper.callAfter];
    - the record threads created by [Scribe.start], each running
      [Scribe.record].

    The embedding is a labelled transition system.  A [World] holds the
    delegate's fields, the shared [Scribe], the [callAfter] queue, every
    thread ever created and the chronological trace of calls made to the
    collaborators (status item, pyaudio, wave, the model, the pasteboard, the
    logger).  An [Event] is one scheduling decision together with the answer
    of the outside world that the scheduled code consumes. *)

From Stdlib Require Import ZArith List Lia Bool.
From stdpp Require Import base list strings.
Import ListNotations.

Local Open Scope Z_scope.

(** ** Module-level constants *)

Definition CHUNK : Z := 1024.
Definition CHANNELS : Z := 1.
Definition RATE : Z := 44100.

(** [FORMAT = pyaudio.paInt16]: [p.get_sample_size(FORMAT)] is two bytes. *)
Definition SAMPLE_SIZE : Z := 2.

(** The [wave] module writes a 44-byte RIFF header in front of the frames
    (also when no frame was written: the header is emitted on close). *)
Definition WAV_HEADER : Z := 44.

Local Close Scope Z_scope.

(** ** Data *)

(** [class State(StrEnum)] *)
Inductive State := ready | processing | recording.

(** The object returned by [from_pretrained]; the number identifies the
    loaded instance. *)
Definition Model := nat.

Inductive Exn :=
| ModelLoadFailure      (* from_pretrained raised *)
| DeviceUnavailable     (* p.open raised *)
| TranscriptionFailure  (* model.transcribe raised *)
| AttributeError.       (* attribute access on None / missing attribute *)

(** Where a record thread stands inside [Scribe.record]. *)
Inductive Pc :=
| AtOpen            (* started, before [p.open] *)
| InLoop            (* at the test of [while self.capture] *)
| AtStat            (* wave file closed, before [temp_path.stat()] *)
| Finished          (* [record] returned *)
| Raised (e : Exn). (* [record] was left by an exception *)

(** A record thread: its position and the number of [writeframes] calls it
    has made (each writes one [stream.read(CHUNK)]). *)
Record Thread := mkThread { pc : Pc; nchunks : nat }.

(** The callables handed to [AppHelper.callAfter]. *)
Inductive Callback := StartFlow | FinishFlow.

(** The main thread is either in the event loop or inside
    [_finish_recording_flow], blocked in [self.record_thread.join()]. *)
Inductive MainPc := EventLoop | Joining.

(** Calls to the collaborators, in the order they are made. *)
Inductive Obs :=
| SetImage (s : State)              (* button.setImage_(<s>_icon) *)
| LogDebug (msg : string)
| LogInfo (msg : string)
| FromPretrained                    (* from_pretrained(...) called *)
| ThreadStart (t : nat)             (* record_thread.start() *)
| WaveOpen (t : nat)                (* wave.open(temp_path, 'wb') *)
| StreamOpen (t : nat)              (* p.open(...) returned a stream *)
| WriteFrames (t : nat)             (* wf.writeframes(stream.read(CHUNK)) *)
| StreamClose (t : nat)             (* stream.close(); p.terminate() *)
| WaveClose (t : nat)               (* exit of the [with wave.open] block *)
| Transcribe (t : nat) (m : Model)  (* self.model.transcribe(temp_path) called *)
| Cleanup (t : nat)                 (* exit of the [with TemporaryDirectory] block *)
| Join (t : nat)                    (* record_thread.join() returned *)
| ClearContents                     (* pasteboard.clearContents() *)
| SetString (text : string)         (* pasteboard.setString_forType_ *)
| Unhandled (who : option nat) (e : Exn).
                                    (* an exception left a callback of the main
                                       thread ([None]) or a record thread *)

(** [class Scribe].  [capture] is not assigned by [__init__]: the attribute
    is missing ([None] here) until [start] sets it. *)
Record Scribe := mkScribe {
  model : option Model;
  record_thread : option nat;
  capture : option bool;
  result : option string
}.

Record World := mkWorld {
  button : bool;               (* [self.status_item.button()] is not None *)
  state : State;               (* [self.state] *)
  scribe : Scribe;             (* [self.scribe], shared with the threads *)
  queue : list Callback;       (* callables queued by [callAfter] *)
  main_pc : MainPc;
  threads : list Thread;       (* every thread created, by thread id *)
  trace : list Obs
}.

(** ** Field updates *)

Definition set_state (s : State) (w : World) : World :=
  mkWorld (button w) s (scribe w) (queue w) (main_pc w) (threads w) (trace w).

Definition set_scribe (sc : Scribe) (w : World) : World :=
  mkWorld (button w) (state w) sc (queue w) (main_pc w) (threads w) (trace w).

Definition set_queue (q : list Callback) (w : World) : World :=
  mkWorld (button w) (state w) (scribe w) q (main_pc w) (threads w) (trace w).

Definition set_main_pc (m : MainPc) (w : World) : World :=
  mkWorld (button w) (state w) (scribe w) (queue w) m (threads w) (trace w).

Definition set_threads (ts : list Thread) (w : World) : World :=
  mkWorld (button w) (state w) (scribe w) (queue w) (main_pc w) ts (trace w).

Definition set_trace (tr : list Obs) (w : World) : World :=
  mkWorld (button w) (state w) (scribe w) (queue w) (main_pc w) (threads w) tr.

Definition with_model (m : option Model) (sc : Scribe) : Scribe :=
  mkScribe m (record_thread sc) (capture sc) (result sc).

Definition with_record_thread (t : option nat) (sc : Scribe) : Scribe :=
  mkScribe (model sc) t (capture sc) (result sc).

Definition with_capture (c : option bool) (sc : Scribe) : Scribe :=
  mkScribe (model sc) (record_thread sc) c (result sc).

Definition with_result (r : option string) (sc : Scribe) : Scribe :=
  mkScribe (model sc) (record_thread sc) (capture sc) r.

(** ** Procedures: state passing with exceptions

    A procedure runs on a world and either returns a value or raises; in both
    cases the assignments made so far are kept. *)

Inductive Outcome (A : Type) :=
| Ret (a : A)
| Exc (e : Exn).
Arguments Ret {A} a.
Arguments Exc {A} e.

Definition Proc (A : Type) : Type := World -> Outcome A * World.

Definition ret {A} (a : A) : Proc A := fun w => (Ret a, w).

Definition raise {A} (e : Exn) : Proc A := fun w => (Exc e, w).

Definition bind {A B} (p : Proc A) (k : A -> Proc B) : Proc B :=
  fun w =>
    match p w with
    | (Ret a, w') => k a w'
    | (Exc e, w') => (Exc e, w')
    end.

Definition get : Proc World := fun w => (Ret w, w).

Definition modify (f : World -> World) : Proc unit := fun w => (Ret tt, f w).

Declare Scope proc_scope.
Delimit Scope proc_scope with proc.
Notation "x <- p ;; k" := (bind p (fun x => k))
  (at level 100, p at next level, right associativity) : proc_scope.
Notation "p ;; k" := (bind p (fun _ => k))
  (at level 100, right associativity) : proc_scope.
Local Open Scope proc_scope.

Definition emit (o : Obs) : Proc unit :=
  modify (fun w => set_trace (trace w ++ [o]) w).

Definition update_scribe (f : Scribe -> Scribe) : Proc unit :=
  modify (fun w => set_scribe (f (scribe w)) w).

Definition set_thread (t : nat) (th : Thread) : Proc unit :=
  modify (fun w => set_threads (<[t := th]> (threads w)) w).

(** ** [class Scribe] *)

Definition Scribe__init__ : Scribe := mkScribe None None None None.

(** [init_model]: [load] is what [from_pretrained] does, [None] when it
    raises. *)
Definition init_model (load : option Model) : Proc unit :=
  emit (LogDebug "Loading model") ;;
  emit FromPretrained ;;
  match load with
  | Some m => update_scribe (with_model (Some m))
  | None => raise ModelLoadFailure
  end.

(** [start]: the new thread gets the next thread id. *)
Definition start : Proc unit :=
  update_scribe (with_capture (Some true)) ;;
  w <- get ;;
  let t := length (threads w) in
  modify (set_threads (threads w ++ [mkThread AtOpen 0])) ;;
  update_scribe (with_record_thread (Some t)) ;;
  emit (ThreadStart t).

(** [temp_path.stat().st_size] once the wave file is closed. *)
Definition st_size (th : Thread) : Z :=
  (WAV_HEADER + Z.of_nat (nchunks th) * (CHUNK * CHANNELS * SAMPLE_SIZE))%Z.


(** One scheduling step of thread [t] inside [record].  [dev_ok] tells
    whether [p.open] succeeds, [text] is what [transcribe] returns ([None]
    when it raises); each is consulted only by the step that makes the call.
    Leaving a [with] block by an exception still runs its exit. *)
Definition record (t : nat) (dev_ok : bool) (text : option string) : Proc unit :=
  w <- get ;;
  match threads w !! t with
  | None => ret tt
  | Some th =>
    match pc th with
    | AtOpen =>
        emit (LogDebug "Recording") ;;
        emit (WaveOpen t) ;;
        if dev_ok then
          emit (StreamOpen t) ;;
          set_thread t (mkThread InLoop (nchunks th))
        else
          emit (WaveClose t) ;;
          emit (Cleanup t) ;;
          raise DeviceUnavailable
    | InLoop =>
        match capture (scribe w) with
        | None =>
            emit (WaveClose t) ;;
            emit (Cleanup t) ;;
            raise AttributeError
        | Some true =>
            emit (WriteFrames t) ;;
            set_thread t (mkThread InLoop (S (nchunks th)))
        | Some false =>
            emit (StreamClose t) ;;
            emit (WaveClose t) ;;
            set_thread t (mkThread AtStat (nchunks th))
        end
    | AtStat =>
        if (CHUNK <? st_size th)%Z then
          emit (LogDebug "Transcribing") ;;
          match model (scribe w) with
          | None =>
              emit (Cleanup t) ;;
              raise AttributeError
          | Some m =>
              emit (Transcribe t m) ;;
              match text with
              | None =>
                  emit (Cleanup t) ;;
                  raise TranscriptionFailure
              | Some s =>
                  update_scribe (with_result (Some s)) ;;
                  emit (LogInfo ("Result: " +:+ s)) ;;
                  emit (Cleanup t) ;;
                  set_thread t (mkThread Finished (nchunks th))
              end
          end
        else
          emit (LogInfo "Sample too short") ;;
          update_scribe (with_result None) ;;
          emit (Cleanup t) ;;
          set_thread t (mkThread Finished (nchunks th))
    | Finished | Raised _ => ret tt
    end
  end.

(** [stop], up to the point where [join] blocks. *)
Definition stop_enter : Proc unit :=
  update_scribe (with_capture (Some false)) ;;
  w <- get ;;
  match record_thread (scribe w) with
  | None => raise AttributeError
  | Some _ => modify (set_main_pc Joining)
  end.

(** [stop], from the return of [join] on thread [t]. *)
Definition stop_leave (t : nat) : Proc (option string) :=
  emit (Join t) ;;
  modify (set_main_pc EventLoop) ;;
  w <- get ;;
  ret (result (scribe w)).

(** ** [class StatusBarDelegate] *)

Definition callAfter (cb : Callback) : Proc unit :=
  modify (fun w => set_queue (queue w ++ [cb]) w).

(** [applicationDidFinishLaunching_]: raises when the status item has no
    button. *)
Definition applicationDidFinishLaunching_ (has_button : bool) : option World :=
  if has_button then
    Some (mkWorld true ready Scribe__init__ [] EventLoop [] [SetImage ready])
  else None.

Definition _update_state : Proc unit :=
  w <- get ;;
  if negb (button w) then ret tt else
  match state w with
  | ready =>
      modify (set_state processing) ;;
      emit (SetImage processing) ;;
      callAfter StartFlow
  | recording =>
      modify (set_state processing) ;;
      emit (SetImage processing) ;;
      callAfter FinishFlow
  | processing => ret tt
  end.

Definition statusItemClicked_ : Proc unit := _update_state.

Definition _start_recording_flow (load : option Model) : Proc unit :=
  w <- get ;;
  if negb (button w) then ret tt else
  match model (scribe w) with
  | None => init_model load
  | Some _ => ret tt
  end ;;
  emit (SetImage recording) ;;
  modify (set_state recording) ;;
  start.

Definition _paste_to_clipboard (text : string) : Proc unit :=
  emit ClearContents ;;
  emit (SetString text).

Definition _finish_recording_flow_enter : Proc unit :=
  w <- get ;;
  if negb (button w) then ret tt else
  stop_enter.

Definition _finish_recording_flow_leave (t : nat) : Proc unit :=
  r <- stop_leave t ;;
  match r with
  | Some text => _paste_to_clipboard text
  | None => ret tt
  end ;;
  modify (set_state ready) ;;
  emit (SetImage ready).

(** ** Scheduling *)

Definition finished (th : Thread) : bool :=
  match pc th with
  | Finished | Raised _ => true
  | _ => false
  end.

(** A callback of the main thread that raises is abandoned where it raised;
    the event loop goes on. *)
Definition run_main (p : Proc unit) (w : World) : World :=
  match p w with
  | (Ret _, w') => w'
  | (Exc e, w') =>
      set_main_pc EventLoop (set_trace (trace w' ++ [Unhandled None e]) w')
  end.

(** An exception that leaves [record] ends that thread only. *)
Definition run_thread (t : nat) (p : Proc unit) (w : World) : World :=
  match p w with
  | (Ret _, w') => w'
  | (Exc e, w') =>
      match threads w' !! t with
      | Some th =>
          set_threads (<[t := mkThread (Raised e) (nchunks th)]> (threads w'))
            (set_trace (trace w' ++ [Unhandled (Some t) e]) w')
      | None => w'
      end
  end.

Inductive Event :=
| Click                                   (* the status item is clicked *)
| RunCallback (load : option Model)       (* the loop runs the next callable *)
| ThreadStep (t : nat) (dev_ok : bool) (text : option string)
| JoinReturns.                            (* the blocked [join] returns *)

(** [Some t] when the main thread is blocked in [join] on thread [t] and
    that thread has ended, so that the join can return. *)
Definition join_ready (w : World) : option nat :=
  match main_pc w, record_thread (scribe w) with
  | Joining, Some t =>
      match threads w !! t with
      | Some th => if finished th then Some t else None
      | None => None
      end
  | _, _ => None
  end.

(** An event that is not enabled (a click while the main thread is blocked,
    no callable queued, a thread that does not exist or has ended, a join on
    a thread still running) leaves the world as it is. *)
Definition step (w : World) (e : Event) : World :=
  match e with
  | Click =>
      match main_pc w with
      | EventLoop => run_main statusItemClicked_ w
      | Joining => w
      end
  | RunCallback load =>
      match main_pc w, queue w with
      | EventLoop, StartFlow :: q =>
          run_main (_start_recording_flow load) (set_queue q w)
      | EventLoop, FinishFlow :: q =>
          run_main _finish_recording_flow_enter (set_queue q w)
      | _, _ => w
      end
  | ThreadStep t dev_ok text => run_thread t (record t dev_ok text) w
  | JoinReturns =>
      match join_ready w with
      | Some t => run_main (_finish_recording_flow_leave t) w
      | None => w
      end
  end.

Definition run (w : World) (evs : list Event) : World := fold_left step evs w.

(** The application once [applicationDidFinishLaunching_] has returned. *)
Definition launched : World :=
  mkWorld true ready Scribe__init__ [] EventLoop [] [SetImage ready].

(** ** Observations on a world *)

Fixpoint live_count (ts : list Thread) : nat :=
  match ts with
  | [] => 0
  | th :: ts' => (if finished th then 0 else 1) + live_count ts'
  end.

(** Number of record threads that have not ended. *)
Definition live (w : World) : nat := live_count (threads w).

Fixpoint clipboard_of (tr : list Obs) : list string :=
  match tr with
  | [] => []
  | SetString s :: tr' => s :: clipboard_of tr'
  | _ :: tr' => clipboard_of tr'
  end.

(** The texts written to the pasteboard, oldest first. *)
Definition clipboard (w : World) : list string := clipboard_of (trace w).

Fixpoint load_calls_of (tr : list Obs) : nat :=
  match tr with
  | [] => 0
  | FromPretrained :: tr' => S (load_calls_of tr')
  | _ :: tr' => load_calls_of tr'
  end.

(** Number of calls of [from_pretrained]. *)
Definition load_calls (w : World) : nat := load_calls_of (trace w).

(** What [Scribe.stop] returns, in a world where its [join] can return. *)
Definition stop_result (w : World) : option (option string) :=
  match join_ready w with
  | Some t =>
      match stop_leave t w with
      | (Ret r, _) => Some r
      | (Exc _, _) => None
      end
  | None => None
  end.

(** ** The state machine of the specification *)

(** The edges of the controller's state diagram. *)
Definition edge (s s' : State) : Prop :=
  match s, s' with
  | ready, processing
  | processing, recording
  | recording, processing
  | processing, ready
  | processing, processing => True
  | _, _ => False
  end.

(** The diagram has two busy phases: one between a click in [ready] and the
    end of the start flow, one between a click in [recording] and the end of
    the finish flow. *)
Inductive Phase := PIdle | PStarting | PRecording | PStopping.

Definition phase_state (p : Phase) : State :=
  match p with
  | PIdle => ready
  | PStarting | PStopping => processing
  | PRecording => recording
  end.

Definition next_phase (p : Phase) : Phase :=
  match p with
  | PIdle => PStarting
  | PStarting => PRecording
  | PRecording => PStopping
  | PStopping => PIdle
  end.

Definition phase (w : World) : Phase :=
  match state w with
  | ready => PIdle
  | recording => PRecording
  | processing =>
      match main_pc w, queue w with
      | Joining, _ => PStopping
      | EventLoop, FinishFlow :: _ => PStopping
      | EventLoop, _ => PStarting
      end
  end.

(** ** Predicates used by the invariants *)

Definition last_thread (ts : list Thread) : option nat :=
  match length ts with
  | 0 => None
  | S n => Some n
  end.

Definition all_finished (ts : list Thread) : Prop :=
  forall i th, ts !! i = Some th -> finished th = true.

(** Every thread but the one created last has ended. *)
Definition older_finished (ts : list Thread) : Prop :=
  forall i th, ts !! i = Some th -> S i < length ts -> finished th = true.

(** A session is under way: a thread was created by [start], which runs only
    after the model was loaded and sets [capture]. *)
Definition in_session (w : World) : Prop :=
  threads w <> [] /\ model (scribe w) <> None /\ capture (scribe w) <> None.

(** The combinations of [state], main-thread position and queued callables
    that occur.  The third is the state left behind by a start flow whose
    model load raised. *)
Definition control_ok (w : World) : Prop :=
  match state w, main_pc w, queue w with
  | ready, EventLoop, [] => all_finished (threads w)
  | processing, EventLoop, [StartFlow] => all_finished (threads w)
  | processing, EventLoop, [] =>
      all_finished (threads w) /\ model (scribe w) = None /\ load_calls w = 1
  | processing, EventLoop, [FinishFlow] => in_session w
  | processing, Joining, [] => in_session w /\ capture (scribe w) = Some false
  | recording, EventLoop, [] => in_session w
  | _, _, _ => False
  end.

Definition loads_ok (w : World) : Prop :=
  match model (scribe w) with
  | Some _ => load_calls w = 1
  | None => load_calls w = 0 \/ (state w = processing /\ queue w = [])
  end.

Record Inv (w : World) : Prop := mkInv {
  inv_button : button w = true;
  inv_last : record_thread (scribe w) = last_thread (threads w);
  inv_older : older_finished (threads w);
  inv_control : control_ok w;
  inv_loads : loads_ok w
}.

(** The moves of a record thread, as a relation: [thread_move sc t d x th th'
    new r] says that thread [t], standing at [th] while the scribe is [sc],
    moves to [th'], makes the calls [new] and leaves [r] in [self.result].
    [step_thread_move] shows that [record] makes exactly these moves. *)
Inductive thread_move (sc : Scribe) (t : nat) :
  bool -> option string -> Thread -> Thread -> list Obs -> option string -> Prop :=
| tm_open_ok x n :
    thread_move sc t true x (mkThread AtOpen n) (mkThread InLoop n)
      [LogDebug "Recording"; WaveOpen t; StreamOpen t] (result sc)
| tm_open_fail x n :
    thread_move sc t false x (mkThread AtOpen n)
      (mkThread (Raised DeviceUnavailable) n)
      [LogDebug "Recording"; WaveOpen t; WaveClose t; Cleanup t;
       Unhandled (Some t) DeviceUnavailable] (result sc)
| tm_loop_unset d x n :
    capture sc = None ->
    thread_move sc t d x (mkThread InLoop n) (mkThread (Raised AttributeError) n)
      [WaveClose t; Cleanup t; Unhandled (Some t) AttributeError] (result sc)
| tm_loop_read d x n :
    capture sc = Some true ->
    thread_move sc t d x (mkThread InLoop n) (mkThread InLoop (S n))
      [WriteFrames t] (result sc)
| tm_loop_exit d x n :
    capture sc = Some false ->
    thread_move sc t d x (mkThread InLoop n) (mkThread AtStat n)
      [StreamClose t; WaveClose t] (result sc)
| tm_stat_short d x n :
    (st_size (mkThread AtStat n) <= CHUNK)%Z ->
    thread_move sc t d x (mkThread AtStat n) (mkThread Finished n)
      [LogInfo "Sample too short"; Cleanup t] None
| tm_stat_unset d x n :
    (CHUNK < st_size (mkThread AtStat n))%Z ->
    model sc = None ->
    thread_move sc t d x (mkThread AtStat n) (mkThread (Raised AttributeError) n)
      [LogDebug "Transcribing"; Cleanup t; Unhandled (Some t) AttributeError]
      (result sc)
| tm_stat_text d s m n :
    (CHUNK < st_size (mkThread AtStat n))%Z ->
    model sc = Some m ->
    thread_move sc t d (Some s) (mkThread AtStat n) (mkThread Finished n)
      [LogDebug "Transcribing"; Transcribe t m; LogInfo ("Result: " +:+ s);
       Cleanup t] (Some s)
| tm_stat_raise d m n :
    (CHUNK < st_size (mkThread AtStat n))%Z ->
    model sc = Some m ->
    thread_move sc t d None (mkThread AtStat n)
      (mkThread (Raised TranscriptionFailure) n)
      [LogDebug "Transcribing"; Transcribe t m; Cleanup t;
       Unhandled (Some t) TranscriptionFailure] (result sc).

(** What the position of thread [t] tells about it.  A thread never ends by
    an [AttributeError]: [record] runs only after [start] has set [capture]
    and after the model was loaded. *)
Definition thread_ok (w : World) (t : nat) (th : Thread) : Prop :=
  match pc th with
  | AtOpen => nchunks th = 0
  | InLoop | Finished => True
  | AtStat => In (WaveClose t) (trace w)
  | Raised DeviceUnavailable => nchunks th = 0
  | Raised TranscriptionFailure => (CHUNK < st_size th)%Z
  | Raised _ => False
  end.

(** The order of calls around a transcription, read off a trace: the wave
    file of the thread was closed before, the thread writes no frame after,
    and no join on the thread has returned before. *)
Definition ordered (tr : list Obs) : Prop :=
  forall pre suf t m, tr = pre ++ Transcribe t m :: suf ->
    In (WaveClose t) pre /\ ~ In (Join t) pre /\ ~ In (WriteFrames t) suf.

Record Inv2 (w : World) : Prop := mkInv2 {
  inv2_threads : forall t th, threads w !! t = Some th -> thread_ok w t th;
  inv2_short : forall t th,
    record_thread (scribe w) = Some t -> threads w !! t = Some th ->
    pc th = Finished -> (st_size th <= CHUNK)%Z -> result (scribe w) = None;
  inv2_transcribed : forall t m, In (Transcribe t m) (trace w) ->
    model (scribe w) = Some m /\
    exists th, threads w !! t = Some th /\ finished th = true /\
               (CHUNK < st_size th)%Z;
  inv2_joined : forall t, In (Join t) (trace w) ->
    exists th, threads w !! t = Some th /\ finished th = true;
  inv2_ordered : ordered (trace w)
}.

(** The calls the main thread makes in a step taken from [w]: never one of a
    record thread; a [Join] only when the join can return, a [SetString] only
    with the text that [stop] returns. *)
Definition main_obs (w : World) (o : Obs) : Prop :=
  match o with
  | Join t => join_ready w = Some t
  | SetString s => join_ready w <> None /\ result (scribe w) = Some s
  | FromPretrained => model (scribe w) = None
  | WaveOpen _ | StreamOpen _ | WriteFrames _ | StreamClose _ | WaveClose _
  | Transcribe _ _ | Cleanup _ | Unhandled (Some _) _ => False
  | _ => True
  end.

(** ** Schedules and further observations *)

(** One complete session from the launched application: the model is loaded,
    the stream is opened, one chunk is captured, the second click stops the
    capture and [transcribe] answers [x]. *)
Definition one_session (x : option string) : list Event :=
  [Click; RunCallback (Some 7); ThreadStep 0 true None;
   ThreadStep 0 true None; Click; RunCallback None;
   ThreadStep 0 true None; ThreadStep 0 true x; JoinReturns].

(** The icon last given to [button.setImage_]. *)
Fixpoint shown_icon_from (cur : option State) (tr : list Obs) : option State :=
  match tr with
  | [] => cur
  | SetImage s :: tr' => shown_icon_from (Some s) tr'
  | _ :: tr' => shown_icon_from cur tr'
  end.

Definition shown_icon (w : World) : option State :=
  shown_icon_from None (trace w).

(** The exceptions that leave a callback of the main thread or a record
    thread. *)
Definition unhandled_ok (o : Obs) : Prop :=
  match o with
  | Unhandled None e => e = ModelLoadFailure
  | Unhandled (Some _) e => e = DeviceUnavailable \/ e = TranscriptionFailure
  | _ => True
  end.




(** ** Basic facts *)

Ltac unfold_proc :=
  unfold run_main, run_thread, statusItemClicked_, _update_state,
    _start_recording_flow, _finish_recording_flow_enter,
    _finish_recording_flow_leave, _paste_to_clipboard, stop_enter,
    stop_leave, start, init_model, callAfter, record, set_thread,
    update_scribe, emit, modify, get, bind, raise, ret in *.

Lemma clipboard_of_app (a b : list Obs) :
  clipboard_of (a ++ b) = clipboard_of a ++ clipboard_of b.
Proof.
  induction a as [|o a IH]; [reflexivity|].
  destruct o; simpl; rewrite IH; reflexivity.
Qed.

Lemma load_calls_of_app (a b : list Obs) :
  load_calls_of (a ++ b) = load_calls_of a + load_calls_of b.
Proof.
  induction a as [|o a IH]; [reflexivity|].
  destruct o; simpl; rewrite IH; reflexivity.
Qed.

Lemma live_count_app (a b : list Thread) :
  live_count (a ++ b) = live_count a + live_count b.
Proof.
  induction a as [|th a IH]; simpl; [reflexivity|]. rewrite IH. lia.
Qed.

Lemma all_finished_live (ts : list Thread) :
  all_finished ts -> live_count ts = 0.
Proof.
  induction ts as [|th ts IH]; intros H; simpl; [reflexivity|].
  rewrite (H 0 th eq_refl). simpl. apply IH.
  intros i th' Hi. exact (H (S i) th' Hi).
Qed.

Lemma live_all_finished (ts : list Thread) :
  live_count ts = 0 -> all_finished ts.
Proof.
  induction ts as [|th ts IH]; intros H i th' Hi.
  - discriminate.
  - simpl in H. destruct i as [|i]; simpl in Hi.
    + injection Hi as <-. destruct (finished th); [reflexivity|discriminate].
    + apply (IH ltac:(lia) i th' Hi).
Qed.

Lemma older_finished_live (ts : list Thread) :
  older_finished ts -> live_count ts <= 1.
Proof.
  destruct ts as [|th ts _] using rev_ind; intros H; simpl; [lia|].
  rewrite live_count_app. simpl.
  assert (live_count ts = 0) as ->.
  { apply all_finished_live. intros i th' Hi.
    apply (H i th').
    - rewrite lookup_app_l; [exact Hi|]. apply lookup_lt_Some in Hi. exact Hi.
    - rewrite length_app. simpl. apply lookup_lt_Some in Hi. lia. }
  destruct (finished th); simpl; lia.
Qed.

Lemma all_older_finished (ts : list Thread) :
  all_finished ts -> older_finished ts.
Proof. intros H i th Hi _. exact (H i th Hi). Qed.

Lemma all_finished_snoc_older (ts : list Thread) (th : Thread) :
  all_finished ts -> older_finished (ts ++ [th]).
Proof.
  intros H i th' Hi Hlt. rewrite length_app in Hlt. simpl in Hlt.
  rewrite lookup_app_l in Hi by lia. exact (H i th' Hi).
Qed.

Lemma last_thread_snoc (ts : list Thread) (th : Thread) :
  last_thread (ts ++ [th]) = Some (length ts).
Proof.
  unfold last_thread. rewrite length_app. simpl.
  replace (length ts + 1) with (S (length ts)) by lia. reflexivity.
Qed.

Lemma last_thread_insert (ts : list Thread) (t : nat) (th : Thread) :
  last_thread (<[t := th]> ts) = last_thread ts.
Proof. unfold last_thread. rewrite length_insert. reflexivity. Qed.

Lemma last_thread_Some (ts : list Thread) (t : nat) :
  last_thread ts = Some t -> length ts = S t.
Proof. unfold last_thread. destruct (length ts); congruence. Qed.

(** A thread that has not ended is the one created last. *)
Lemma older_finished_alive (ts : list Thread) (t : nat) (th : Thread) :
  older_finished ts -> ts !! t = Some th -> finished th = false ->
  last_thread ts = Some t.
Proof.
  intros Ho Ht Hf. pose proof (lookup_lt_Some _ _ _ Ht) as Hlt.
  unfold last_thread. destruct (length ts) as [|n] eqn:E; [lia|].
  destruct (decide (n = t)) as [->|Hne]; [reflexivity|].
  rewrite (Ho t th Ht) in Hf; [discriminate|lia].
Qed.

(** ** The moves of a record thread *)

Lemma step_thread_move (w : World) (t : nat) (d : bool) (x : option string) :
  (step w (ThreadStep t d x) = w /\
   (threads w !! t = None \/
    exists th, threads w !! t = Some th /\ finished th = true)) \/
  exists th th' new r,
    threads w !! t = Some th /\ finished th = false /\
    thread_move (scribe w) t d x th th' new r /\
    step w (ThreadStep t d x) =
      mkWorld (button w) (state w) (with_result r (scribe w)) (queue w)
        (main_pc w) (<[t := th']> (threads w)) (trace w ++ new).
Proof.
  destruct w as [b st [mo rt ca re] q mp ts tr].
  unfold step; unfold_proc; simpl.
  destruct (ts !! t) as [[[| | | |ex] n]|] eqn:Et; simpl;
    try (left; split; [reflexivity|]; eauto; fail).
  - right. destruct d; simpl; rewrite ?Et; simpl;
      repeat rewrite <- app_assoc; simpl;
      do 4 eexists; (split; [reflexivity|]); (split; [reflexivity|]);
      (split; [|reflexivity]); constructor.
  - right. destruct ca as [[|]|]; simpl; rewrite ?Et; simpl;
      repeat rewrite <- app_assoc; simpl;
      do 4 eexists; (split; [reflexivity|]); (split; [reflexivity|]);
      (split; [|reflexivity]); constructor; reflexivity.
  - right. destruct (CHUNK <? st_size _)%Z eqn:Hsz; simpl.
    + apply Z.ltb_lt in Hsz.
      destruct mo as [m|]; [destruct x as [s|]|]; simpl; rewrite ?Et; simpl;
        repeat rewrite <- app_assoc; simpl;
        do 4 eexists; (split; [reflexivity|]); (split; [reflexivity|]);
        (split; [|reflexivity]); constructor; (exact Hsz || reflexivity).
    + apply Z.ltb_ge in Hsz.
      repeat rewrite <- app_assoc; simpl.
      do 4 eexists; (split; [reflexivity|]); (split; [reflexivity|]);
        (split; [|reflexivity]); constructor; exact Hsz.
Qed.

Lemma thread_move_quiet sc t d x th th' new r :
  thread_move sc t d x th th' new r ->
  load_calls_of new = 0 /\ clipboard_of new = [].
Proof. destruct 1; split; reflexivity. Qed.

(** ** The invariant *)

Lemma launched_Inv : Inv launched.
Proof.
  split; simpl; try reflexivity.
  - intros i th Hi. discriminate.
  - intros i th Hi. discriminate.
  - left. reflexivity.
Qed.

Lemma thread_step_Inv (w : World) (t : nat) (d : bool) (x : option string) :
  Inv w -> Inv (step w (ThreadStep t d x)).
Proof.
  intros HI.
  destruct (step_thread_move w t d x)
    as [[-> _]|(th & th' & new & r & Ht & Hf & Hm & ->)]; [exact HI|].
  destruct HI as [Hb Hl Ho Hc Hld].
  pose proof (older_finished_alive _ _ _ Ho Ht Hf) as Hlast.
  pose proof (last_thread_Some _ _ Hlast) as Hlen.
  destruct (thread_move_quiet _ _ _ _ _ _ _ _ Hm) as [Hq _].
  assert (Hna : ~ all_finished (threads w)).
  { intros Ha. rewrite (Ha t th Ht) in Hf. discriminate. }
  assert (Hne : <[t := th']> (threads w) <> []).
  { intros E. apply (f_equal length) in E. rewrite length_insert in E.
    simpl in E. lia. }
  split; simpl.
  - exact Hb.
  - rewrite last_thread_insert. exact Hl.
  - intros i th0 Hi Hlt. rewrite length_insert in Hlt.
    rewrite list_lookup_insert_ne in Hi by lia. exact (Ho i th0 Hi Hlt).
  - unfold control_ok, in_session, load_calls in *. simpl.
    rewrite load_calls_of_app, Hq.
    destruct (state w), (main_pc w), (queue w) as [|[|] [|]];
      try contradiction; try tauto.
  - unfold loads_ok, load_calls in *. simpl.
    rewrite load_calls_of_app, Hq, Nat.add_0_r. exact Hld.
Qed.

Lemma older_last_finished (ts : list Thread) (t : nat) (th : Thread) :
  older_finished ts -> last_thread ts = Some t -> ts !! t = Some th ->
  finished th = true -> all_finished ts.
Proof.
  intros Ho Hl Ht Hf i th' Hi. apply last_thread_Some in Hl.
  destruct (decide (i = t)) as [->|Hne]; [congruence|].
  apply (Ho i th' Hi). apply lookup_lt_Some in Hi. lia.
Qed.

Lemma snoc_not_nil {A} (l : list A) (a : A) : l ++ [a] <> [].
Proof. destruct l; discriminate. Qed.

Ltac inv_split :=
  split; unfold control_ok, loads_ok, in_session, load_calls in *; simpl in *;
  rewrite ?load_calls_of_app in *; simpl in *; rewrite ?Nat.add_0_r in *;
  rewrite ?last_thread_snoc;
  try first
    [ assumption | reflexivity
    | apply all_finished_snoc_older; assumption
    | apply all_older_finished; assumption
    | intuition (try discriminate; try congruence; try lia;
                 try (exfalso; eapply snoc_not_nil; eassumption)) ].

Lemma step_Inv (w : World) (e : Event) : Inv w -> Inv (step w e).
Proof.
  destruct e as [|load|t d x|]; [| |apply thread_step_Inv|].
  - (* Click *)
    destruct w as [b st [mo rt ca re] q mp ts tr].
    intros [Hb Hl Ho Hc Hld]. simpl in *. subst b.
    unfold control_ok in Hc. simpl in Hc.
    destruct mp; [|inv_split].
    unfold_proc; simpl.
    destruct st, q as [|[|] [|]]; try contradiction; simpl;
      destruct mo; inv_split.
  - (* RunCallback *)
    destruct w as [b st [mo rt ca re] q mp ts tr].
    intros [Hb Hl Ho Hc Hld]. simpl in *. subst b.
    unfold control_ok in Hc. simpl in Hc.
    destruct mp; [|inv_split].
    destruct st, q as [|[|] [|]]; try contradiction; simpl;
      try (destruct mo; inv_split; fail).
    + (* the start flow *)
      unfold_proc; simpl.
      destruct mo as [m|]; [|destruct load as [m|]]; simpl; inv_split.
    + (* the finish flow, up to the join *)
      unfold_proc; simpl.
      assert (exists t, rt = Some t) as [t ->].
      { subst rt. unfold in_session in Hc. simpl in Hc.
        destruct ts; [tauto|]. unfold last_thread. simpl. eauto. }
      simpl. destruct mo; inv_split.
  - (* JoinReturns *)
    destruct w as [b st [mo rt ca re] q mp ts tr].
    intros [Hb Hl Ho Hc Hld]. simpl in *. subst b.
    unfold control_ok in Hc. unfold join_ready. simpl in *.
    destruct mp; [inv_split|].
    destruct rt as [t|]; [|inv_split].
    destruct (ts !! t) as [th|] eqn:Et; [|inv_split].
    destruct (finished th) eqn:Hf; [|inv_split].
    pose proof (older_last_finished _ _ _ Ho (eq_sym Hl) Et Hf) as Hall.
    destruct st, q as [|[|] [|]]; try contradiction.
    unfold_proc; simpl.
    destruct re as [s|]; simpl; destruct mo; inv_split.
Qed.

Lemma run_Inv (evs : list Event) (w : World) : Inv w -> Inv (run w evs).
Proof.
  revert w. induction evs as [|e evs IH]; intros w HI; [exact HI|].
  simpl. apply IH, step_Inv, HI.
Qed.

Lemma reachable_Inv (evs : list Event) : Inv (run launched evs).
Proof. apply run_Inv, launched_Inv. Qed.

(** ** What the main thread can change *)

Ltac main_cases w :=
  destruct w as [b st [mo rt ca re] q mp ts tr];
  unfold step, join_ready, live, clipboard, load_calls; simpl;
  destruct mp; simpl; try tauto; try reflexivity;
  destruct b, st, q as [|[|] q], mo, rt as [t0|], re;
  unfold_proc; simpl;
  try (destruct (ts !! t0) as [th0|] eqn:Et0; simpl;
       [destruct (finished th0) eqn:Hf0; simpl|]).

(** The main thread never assigns [self.result], and creates a thread only
    in the start flow. *)
Lemma main_step_frame (w : World) (e : Event) :
  (forall t d x, e <> ThreadStep t d x) ->
  result (scribe (step w e)) = result (scribe w) /\
  (threads (step w e) = threads w \/
   threads (step w e) = threads w ++ [mkThread AtOpen 0] /\
   main_pc w = EventLoop /\
   exists load q, e = RunCallback load /\ queue w = StartFlow :: q).
Proof.
  intros Hne. destruct e as [|load|t d x|]; [| |destruct (Hne t d x eq_refl)|].
  - main_cases w; auto.
  - destruct load; main_cases w; eauto 10.
  - main_cases w; auto.
Qed.

Lemma step_length_threads (w : World) (e : Event) :
  length (threads w) <= length (threads (step w e)).
Proof.
  destruct e as [|load|t d x|].
  - destruct (main_step_frame w Click ltac:(discriminate))
      as (_ & [->|(-> & _)]); rewrite ?length_app; simpl; lia.
  - destruct (main_step_frame w (RunCallback load) ltac:(discriminate))
      as (_ & [->|(-> & _)]); rewrite ?length_app; simpl; lia.
  - destruct (step_thread_move w t d x)
      as [[-> _]|(th & th' & new & r & _ & _ & _ & ->)]; simpl;
      rewrite ?length_insert; lia.
  - destruct (main_step_frame w JoinReturns ltac:(discriminate))
      as (_ & [->|(-> & _)]); rewrite ?length_app; simpl; lia.
Qed.

(** ** The calls made by the main thread *)

Ltac trace_split :=
  first
    [ exists []; split; [symmetry; apply app_nil_r|]
    | repeat rewrite <- app_assoc; eexists; split; [reflexivity|] ];
  simpl; intros o Ho;
  repeat (destruct Ho as [<-|Ho];
          [simpl; try tauto; try reflexivity;
           try (split; [discriminate|reflexivity])|]);
  try contradiction.

Lemma main_step_trace (w : World) (e : Event) :
  (forall t d x, e <> ThreadStep t d x) ->
  exists new, trace (step w e) = trace w ++ new /\
              forall o, In o new -> main_obs w o.
Proof.
  intros Hne. destruct e as [|load|t d x|]; [| |destruct (Hne t d x eq_refl)|].
  - unfold main_obs, join_ready. main_cases w; trace_split.
  - unfold main_obs, join_ready. destruct load; main_cases w; trace_split.
  - unfold main_obs, join_ready. main_cases w; trace_split.
Qed.

(** * The claims *)

(** ** One record thread at a time *)

(** C2: whatever the interleaving of clicks, callbacks, thread steps and
    joins, at most one record thread is alive, and a step that creates a
    thread (the [start] of a new session) is taken only when no thread is
    alive. *)
Theorem at_most_one_live_thread (evs : list Event) (e : Event) :
  let w := run launched evs in
  live w <= 1 /\
  (length (threads (step w e)) = length (threads w) \/
   live w = 0 /\ threads (step w e) = threads w ++ [mkThread AtOpen 0]).
Proof.
  intros w. pose proof (reachable_Inv evs) as HI. fold w in HI.
  split; [apply older_finished_live, HI|].
  destruct e as [|load|t d x|].
  - destruct (main_step_frame w Click ltac:(discriminate))
      as (_ & [->|(_ & _ & ? & ? & ? & _)]); [auto|discriminate].
  - destruct (main_step_frame w (RunCallback load) ltac:(discriminate))
      as (_ & [->|(Hth & Hmp & ? & q & _ & Hq)]); [auto|].
    right. split; [|exact Hth].
    apply all_finished_live.
    destruct HI as [_ _ _ Hc _]. unfold control_ok in Hc.
    rewrite Hmp, Hq in Hc.
    destruct (state w), q; tauto.
  - left.
    destruct (step_thread_move w t d x)
      as [[-> _]|(th & th' & new & r & _ & _ & _ & ->)]; simpl;
      rewrite ?length_insert; reflexivity.
  - destruct (main_step_frame w JoinReturns ltac:(discriminate))
      as (_ & [->|(_ & _ & ? & ? & ? & _)]); [auto|discriminate].
Qed.

(** ** The controller's state machine *)

Lemma step_phase (w : World) (e : Event) :
  Inv w ->
  phase (step w e) = phase w \/ phase (step w e) = next_phase (phase w).
Proof.
  intros [Hb Hl _ Hc _].
  destruct e as [|load|t d x|].
  - unfold control_ok, phase in *. revert Hb Hc.
    main_cases w; simpl; intros; try contradiction; try discriminate; auto;
      destruct q; simpl in *; try contradiction; auto.
  - unfold control_ok, phase, in_session, last_thread in *. revert Hb Hl Hc.
    destruct load; main_cases w; simpl; intros;
      try contradiction; try discriminate; auto;
      destruct q; simpl in *; try contradiction; auto;
      destruct ts; simpl in *; try discriminate; tauto.
  - left.
    destruct (step_thread_move w t d x)
      as [[-> _]|(th & th' & new & r & _ & _ & _ & ->)]; reflexivity.
  - unfold control_ok, phase in *. revert Hb Hc.
    main_cases w; simpl; intros; try contradiction; try discriminate; auto;
      destruct q; simpl in *; try contradiction; auto.
Qed.

Lemma phase_state_phase (w : World) : phase_state (phase w) = state w.
Proof.
  unfold phase. destruct (state w); [reflexivity| |reflexivity].
  destruct (main_pc w), (queue w) as [|[|] ?]; reflexivity.
Qed.

Lemma click_while_processing (w : World) :
  state w = processing -> step w Click = w.
Proof.
  destruct w as [b st sc q mp ts tr]. simpl. intros ->.
  destruct mp; [|reflexivity]. unfold_proc. simpl.
  destruct b; reflexivity.
Qed.

(** C1: along every run the controller follows the diagram
    ready -> processing -> recording -> processing -> ready: each step either
    leaves [state] as it is or takes one edge of the diagram, the busy phase
    entered from [ready] is left only towards [recording] and the one entered
    from [recording] only towards [ready]; a click that arrives while the
    state is [processing] changes nothing at all (in particular neither the
    state nor the number of live record threads). *)
Theorem toggle_follows_edges (evs : list Event) (e : Event) :
  let w := run launched evs in
  let w' := step w e in
  (state w' = state w \/ edge (state w) (state w')) /\
  state w = phase_state (phase w) /\
  (phase w' = phase w \/ phase w' = next_phase (phase w)) /\
  (e = Click -> state w = processing ->
   w' = w /\ state w' = processing /\ live w' = live w).
Proof.
  intros w w'. pose proof (reachable_Inv evs) as HI. fold w in HI.
  pose proof (step_phase w e HI) as Hp. fold w' in Hp.
  pose proof (phase_state_phase w) as Hs.
  pose proof (phase_state_phase w') as Hs'.
  repeat split.
  - destruct Hp as [Hp|Hp]; rewrite <- Hs, <- Hs', Hp.
    + left. reflexivity.
    + right. destruct (phase w); exact I.
  - symmetry. exact Hs.
  - exact Hp.
  - subst w'. rewrite H, (click_while_processing w H0). reflexivity.
  - subst w'. rewrite H, (click_while_processing w H0). exact H0.
  - subst w'. rewrite H, (click_while_processing w H0). reflexivity.
Qed.

Lemma toggle_follows_edges_witness :
  let w := run launched [Click] in
  state w = processing /\ step w Click = w /\ live (step w Click) = live w.
Proof.
  destruct (toggle_follows_edges [Click] Click) as (_ & _ & _ & H).
  destruct (H eq_refl eq_refl) as (H1 & H2 & H3).
  split; [exact H2|]. split; [exact H1|exact H3].
Defined.

(** ** The model is loaded once *)

Lemma Inv_load_calls (w : World) : Inv w -> load_calls w <= 1.
Proof.
  intros [_ _ _ Hc Hld]. unfold loads_ok, control_ok, in_session in *.
  destruct (model (scribe w)); [lia|].
  destruct Hld as [->|[Hs Hq]]; [lia|]. rewrite Hs, Hq in Hc.
  destruct (main_pc w); [lia|tauto].
Qed.

Lemma step_model_kept (w : World) (e : Event) (m : Model) :
  model (scribe w) = Some m -> model (scribe (step w e)) = Some m.
Proof.
  destruct e as [|load|t d x|].
  - revert m. main_cases w; simpl; intros; congruence.
  - revert m. main_cases w; simpl; intros; congruence.
  - destruct (step_thread_move w t d x)
      as [[-> _]|(th & th' & new & r & _ & _ & _ & ->)]; simpl; auto.
  - revert m. main_cases w; simpl; intros; congruence.
Qed.

Lemma run_model_kept (evs : list Event) (w : World) (m : Model) :
  model (scribe w) = Some m -> model (scribe (run w evs)) = Some m.
Proof.
  revert w. induction evs as [|e evs IH]; intros w H; [exact H|].
  simpl. apply IH, step_model_kept, H.
Qed.

(** C8: in every run [from_pretrained] is called at most once; from the
    moment [self.model] holds a loaded instance, every later point of the run
    (so every later session) finds that same instance and no further call of
    [from_pretrained] has been made. *)
Theorem model_loaded_at_most_once (evs evs' : list Event) :
  let w := run launched evs in
  let w' := run w evs' in
  load_calls w <= 1 /\
  forall m, model (scribe w) = Some m ->
            model (scribe w') = Some m /\ load_calls w' = load_calls w.
Proof.
  intros w w'. pose proof (reachable_Inv evs) as HI. fold w in HI.
  split; [apply Inv_load_calls, HI|].
  intros m Hm. pose proof (run_model_kept evs' w m Hm) as Hm'. fold w' in Hm'.
  split; [exact Hm'|].
  assert (HI' : Inv w') by (apply run_Inv, HI).
  destruct HI as [_ _ _ _ Hl]. destruct HI' as [_ _ _ _ Hl'].
  unfold loads_ok in *. rewrite Hm in Hl. rewrite Hm' in Hl'. congruence.
Qed.

(** ** A model load that raises *)

(** The state left by a failed load: nothing is enabled any more. *)
Lemma stranded_frozen (w : World) (e : Event) :
  Inv w -> state w = processing -> main_pc w = EventLoop -> queue w = [] ->
  step w e = w.
Proof.
  intros [_ _ _ Hc _] Hs Hm Hq. unfold control_ok in Hc.
  rewrite Hs, Hm, Hq in Hc. destruct Hc as (Hall & _ & _).
  destruct e as [|load|t d x|].
  - apply click_while_processing, Hs.
  - simpl. rewrite Hm, Hq. reflexivity.
  - destruct (step_thread_move w t d x)
      as [[-> _]|(th & th' & new & r & Ht & Hf & _ & _)]; [reflexivity|].
    rewrite (Hall t th Ht) in Hf. discriminate.
  - simpl. unfold join_ready. rewrite Hm. reflexivity.
Qed.

Lemma stranded_forever (evs : list Event) (w : World) :
  Inv w -> state w = processing -> main_pc w = EventLoop -> queue w = [] ->
  run w evs = w.
Proof.
  intros HI Hs Hm Hq. induction evs as [|e evs IH]; [reflexivity|].
  simpl. rewrite (stranded_frozen w e HI Hs Hm Hq). exact IH.
Qed.

(** C4, as the code has it: when [from_pretrained] raises in the start flow,
    the exception leaves [_start_recording_flow] before the state is set: the
    state stays [processing], no model is stored, no thread is created,
    nothing is written to the pasteboard, and from then on no event changes
    anything: every later click is ignored. *)
Theorem load_failure_strands (evs evs' : list Event) (q : list Callback) :
  let w := run launched evs in
  let w' := step w (RunCallback None) in
  main_pc w = EventLoop -> queue w = StartFlow :: q ->
  model (scribe w) = None ->
  state w' = processing /\ model (scribe w') = None /\
  threads w' = threads w /\ live w' = 0 /\ clipboard w' = clipboard w /\
  trace w' = trace w ++ [LogDebug "Loading model"; FromPretrained;
                         Unhandled None ModelLoadFailure] /\
  run w' evs' = w'.
Proof.
  intros w w' Hm Hq Hmo.
  pose proof (reachable_Inv evs) as HI. fold w in HI.
  pose proof (step_Inv w (RunCallback None) HI) as HI'. fold w' in HI'.
  assert (Hall : all_finished (threads w)).
  { destruct HI as [_ _ _ Hc _]. unfold control_ok in Hc.
    rewrite Hm, Hq in Hc. destruct (state w), q; tauto. }
  assert (E : w' = mkWorld (button w) (state w) (scribe w) [] EventLoop
                     (threads w)
                     (trace w ++ [LogDebug "Loading model"; FromPretrained;
                                  Unhandled None ModelLoadFailure]) /\
              state w = processing).
  { destruct HI as [Hb _ _ Hc _]. unfold control_ok in Hc. subst w'.
    revert Hb Hc Hm Hq Hmo. generalize w. clear.
    intros [b st [mo rt ca re] qq mp ts tr]. simpl. intros -> Hc -> -> ->.
    destruct st, q; try contradiction. unfold_proc. simpl.
    repeat rewrite <- app_assoc. simpl. split; reflexivity. }
  destruct E as [E Hs].
  assert (Hs' : state w' = processing) by (rewrite E; exact Hs).
  repeat split.
  - exact Hs'.
  - rewrite E. exact Hmo.
  - rewrite E. reflexivity.
  - unfold live. rewrite E. simpl. apply all_finished_live, Hall.
  - unfold clipboard. rewrite E. simpl. rewrite clipboard_of_app, app_nil_r.
    reflexivity.
  - rewrite E. reflexivity.
  - apply stranded_forever; [exact HI'|exact Hs'|rewrite E..]; reflexivity.
Qed.

Lemma load_failure_strands_witness :
  let w := run launched [Click] in
  let w' := step w (RunCallback None) in
  state w' = processing /\ run w' [Click; RunCallback (Some 7); Click] = w'.
Proof.
  destruct (load_failure_strands [Click] [Click; RunCallback (Some 7); Click] [])
    as (H1 & _ & _ & _ & _ & _ & H2); try reflexivity.
  split; [exact H1|exact H2].
Defined.

(** C4 as stated fails: after a start flow whose load raised, the state is
    [processing], not [ready], and further clicks and callbacks leave it
    there. *)
Lemma load_failure_counterexample :
  let w := run launched [Click; RunCallback None] in
  state w = processing /\ state w <> ready /\
  state (run w [Click; RunCallback (Some 7); JoinReturns; Click]) = processing.
Proof. simpl. repeat split. discriminate. Qed.

(** * Further properties of the program *)

(** ** Appending to a trace *)

Lemma ordered_app (tr new : list Obs) :
  ordered tr ->
  (forall t m, In (Transcribe t m) tr -> ~ In (WriteFrames t) new) ->
  (forall pre suf t m, new = pre ++ Transcribe t m :: suf ->
     In (WaveClose t) (tr ++ pre) /\ ~ In (Join t) (tr ++ pre) /\
     ~ In (WriteFrames t) suf) ->
  ordered (tr ++ new).
Proof.
  intros Ho Hw Hn pre suf t m E.
  apply app_eq_app in E. destruct E as [l [[E1 E2]|[E1 E2]]].
  - destruct l as [|o l].
    + rewrite app_nil_r in E1. subst pre. simpl in E2.
      destruct (Hn [] suf t m (eq_sym E2)) as (H1 & H2 & H3).
      rewrite app_nil_r in H1, H2. auto.
    + simpl in E2. injection E2 as <- ->.
      destruct (Ho pre l t m E1) as (H1 & H2 & H3).
      split; [exact H1|]. split; [exact H2|].
      rewrite in_app_iff. intros [H|H]; [exact (H3 H)|].
      apply (Hw t m); [|exact H]. rewrite E1, in_app_iff. right. left.
      reflexivity.
  - subst pre. exact (Hn l suf t m E2).
Qed.

Lemma no_transcribe_split (new pre suf : list Obs) (t : nat) (m : Model) :
  (forall t' m', ~ In (Transcribe t' m') new) ->
  new <> pre ++ Transcribe t m :: suf.
Proof.
  intros H E. apply (H t m). rewrite E. apply in_elt.
Qed.

Lemma one_transcribe_split (s : string) (t t0 : nat) (m m0 : Model)
    (rest pre suf : list Obs) :
  (forall t' m', ~ In (Transcribe t' m') rest) ->
  LogDebug s :: Transcribe t m :: rest = pre ++ Transcribe t0 m0 :: suf ->
  pre = [LogDebug s] /\ t0 = t /\ m0 = m /\ suf = rest.
Proof.
  intros H E. destruct pre as [|p [|p' pre]]; simpl in E.
  - discriminate.
  - injection E as <- <- <- <-. auto.
  - injection E as _ _ E. exfalso. apply (H t0 m0). rewrite E. apply in_elt.
Qed.

(** ** The second invariant *)

Lemma thread_ok_mono (w w' : World) (t : nat) (th : Thread) :
  (forall o, In o (trace w) -> In o (trace w')) ->
  thread_ok w t th -> thread_ok w' t th.
Proof.
  unfold thread_ok. intros H. destruct (pc th) as [| | | |[]]; auto.
Qed.

Lemma launched_Inv2 : Inv2 launched.
Proof.
  split; simpl.
  - intros t th H. discriminate.
  - intros t th H. discriminate.
  - intros t m [H|[]]. discriminate.
  - intros t [H|[]]. discriminate.
  - intros pre suf t m E. destruct pre as [|o [|o' pre]]; discriminate.
Qed.

(** A thread that has not ended belongs to the session under way. *)
Lemma alive_in_session (w : World) (t : nat) (th : Thread) :
  Inv w -> threads w !! t = Some th -> finished th = false ->
  in_session w /\ record_thread (scribe w) = Some t.
Proof.
  intros [_ Hl Ho Hc _] Ht Hf. split.
  - assert (Hna : ~ all_finished (threads w)).
    { intros Ha. rewrite (Ha t th Ht) in Hf. discriminate. }
    unfold control_ok in Hc.
    destruct (state w), (main_pc w), (queue w) as [|[|] [|]];
      try contradiction; tauto.
  - rewrite Hl. exact (older_finished_alive _ _ _ Ho Ht Hf).
Qed.

Lemma thread_step_Inv2 (w : World) (t : nat) (d : bool) (x : option string) :
  Inv w -> Inv2 w -> Inv2 (step w (ThreadStep t d x)).
Proof.
  intros HI HJ.
  destruct (step_thread_move w t d x)
    as [[-> _]|(th & th' & new & r & Ht & Hf & Hm & ->)]; [exact HJ|].
  destruct (alive_in_session w t th HI Ht Hf) as [(Hne & Hmo & Hca) Hrt].
  destruct HJ as [Hth Hsh Htr Hjo Hor].
  pose proof (lookup_lt_Some _ _ _ Ht) as Hlt.
  assert (Hold : forall t0 th0, threads w !! t0 = Some th0 ->
                 finished th0 = true -> t0 <> t).
  { intros t0 th0 H0 Hf0 ->. congruence. }
  split; simpl.
  - (* threads *)
    intros t0 th0 H0. destruct (decide (t0 = t)) as [->|Hne0].
    + rewrite list_lookup_insert_eq in H0 by exact Hlt. injection H0 as <-.
      pose proof (Hth t th Ht) as Hok. unfold thread_ok in *. simpl.
      destruct Hm; simpl in *; auto; try congruence.
      rewrite in_app_iff. right. simpl. auto.
    + rewrite list_lookup_insert_ne in H0 by congruence.
      apply (thread_ok_mono w); [|exact (Hth t0 th0 H0)].
      simpl. intros o Ho. rewrite in_app_iff. auto.
  - (* a short sample leaves no result *)
    intros t0 th0 H0 H1 Hpc Hsz. rewrite Hrt in H0. injection H0 as <-.
    rewrite list_lookup_insert_eq in H1 by exact Hlt. injection H1 as <-.
    destruct Hm; simpl in *; try discriminate; try reflexivity.
    unfold st_size in *. simpl in *. lia.
  - (* transcriptions *)
    intros t0 m0 H0. rewrite in_app_iff in H0. destruct H0 as [H0|H0].
    + destruct (Htr t0 m0 H0) as (Hm0 & th0 & Ht0 & Hf0 & Hs0).
      split; [exact Hm0|]. exists th0.
      rewrite list_lookup_insert_ne by (apply not_eq_sym, (Hold t0 th0 Ht0 Hf0)).
      auto.
    + destruct Hm; simpl in H0;
        repeat (destruct H0 as [H0|H0]; [try discriminate|]);
        try contradiction;
        injection H0 as <- <-; (split; [assumption|]);
        eexists; (split; [apply list_lookup_insert_eq, Hlt|]);
        (split; [reflexivity|assumption]).
  - (* joins *)
    intros t0 H0. rewrite in_app_iff in H0. destruct H0 as [H0|H0].
    + destruct (Hjo t0 H0) as (th0 & Ht0 & Hf0). exists th0.
      rewrite list_lookup_insert_ne by (apply not_eq_sym, (Hold t0 th0 Ht0 Hf0)).
      auto.
    + destruct Hm; simpl in H0;
        repeat (destruct H0 as [H0|H0]; [discriminate|]); contradiction.
  - (* order *)
    apply ordered_app; [exact Hor| |].
    + intros t0 m0 H0 H1.
      destruct (Htr t0 m0 H0) as (_ & th0 & Ht0 & Hf0 & _).
      apply (Hold t0 th0 Ht0 Hf0).
      destruct Hm; simpl in H1;
        repeat (destruct H1 as [H1|H1]; [try discriminate|]);
        try contradiction.
      injection H1 as ->. reflexivity.
    + intros pre suf t0 m0 E.
      assert (Hnj : ~ In (Join t) (trace w)).
      { intros H. destruct (Hjo t H) as (th0 & Ht0 & Hf0). congruence. }
      pose proof (Hth t th Ht) as Hok. unfold thread_ok in Hok.
      destruct Hm; simpl in Hok.
      1-7: exfalso; revert E; apply no_transcribe_split;
        intros t' m' Hin; simpl in Hin;
        repeat (destruct Hin as [Hin|Hin]; [discriminate|]); contradiction.
      all: apply one_transcribe_split in E;
        [|intros t' m' Hin; simpl in Hin;
          repeat (destruct Hin as [Hin|Hin]; [discriminate|]); contradiction];
        destruct E as (-> & -> & -> & ->);
        (split; [rewrite in_app_iff; auto|]);
        (split; [rewrite in_app_iff; simpl; intros [Hin|[Hin|[]]];
                 [exact (Hnj Hin)|discriminate]|]);
        simpl; intros Hin;
        repeat (destruct Hin as [Hin|Hin]; [discriminate|]); contradiction.
Qed.

Lemma main_obs_not_thread (w : World) (new : list Obs) :
  (forall o, In o new -> main_obs w o) ->
  (forall t m, ~ In (Transcribe t m) new) /\
  (forall t, ~ In (WriteFrames t) new).
Proof.
  intros H. split; [intros t m Hin|intros t Hin]; exact (H _ Hin).
Qed.

Lemma join_ready_finished (w : World) (t : nat) :
  join_ready w = Some t ->
  main_pc w = Joining /\ record_thread (scribe w) = Some t /\
  exists th, threads w !! t = Some th /\ finished th = true.
Proof.
  unfold join_ready.
  destruct (main_pc w); [discriminate|].
  destruct (record_thread (scribe w)) as [t0|]; [|discriminate].
  destruct (threads w !! t0) as [th|] eqn:Et; [|discriminate].
  destruct (finished th) eqn:Hf; [|discriminate].
  intros [= <-]. eauto.
Qed.

Lemma main_step_Inv2 (w : World) (e : Event) :
  (forall t d x, e <> ThreadStep t d x) ->
  Inv w -> Inv2 w -> Inv2 (step w e).
Proof.
  intros Hne HI HJ.
  pose proof (step_Inv w e HI) as HI'.
  destruct (main_step_trace w e Hne) as (new & Etr & Hnew).
  destruct (main_obs_not_thread w new Hnew) as [Hnt Hnw].
  destruct (main_step_frame w e Hne) as (Eres & Eth).
  assert (Hlook : forall t th, threads w !! t = Some th ->
                  threads (step w e) !! t = Some th).
  { intros t th Ht. destruct Eth as [->|(-> & _)]; [exact Ht|].
    rewrite lookup_app_l; [exact Ht|]. exact (lookup_lt_Some _ _ _ Ht). }
  destruct HJ as [Hth Hsh Htr Hjo Hor].
  split.
  - (* threads *)
    intros t th Ht.
    assert (Hmono : forall o, In o (trace w) -> In o (trace (step w e))).
    { intros o Ho. rewrite Etr, in_app_iff. auto. }
    destruct Eth as [E|(E & _)]; rewrite E in Ht.
    + exact (thread_ok_mono w _ t th Hmono (Hth t th Ht)).
    + apply lookup_app_Some in Ht. destruct Ht as [Ht|[_ Ht]].
      * exact (thread_ok_mono w _ t th Hmono (Hth t th Ht)).
      * destruct (t - length (threads w)) as [|k]; [|destruct k; discriminate].
        injection Ht as <-. reflexivity.
  - (* a short sample leaves no result *)
    intros t th Hrt Ht Hpc Hsz. rewrite Eres.
    destruct HI as [_ Hl _ _ _]. destruct HI' as [_ Hl' _ _ _].
    rewrite Hl' in Hrt.
    destruct Eth as [E|(E & _)]; rewrite E in Ht, Hrt.
    + apply (Hsh t th); [rewrite Hl; exact Hrt|exact Ht|exact Hpc|exact Hsz].
    + rewrite last_thread_snoc in Hrt. injection Hrt as <-.
      rewrite lookup_app_r, Nat.sub_diag in Ht by lia.
      injection Ht as <-. discriminate.
  - (* transcriptions *)
    intros t m Hin. rewrite Etr, in_app_iff in Hin.
    destruct Hin as [Hin|Hin]; [|destruct (Hnt t m Hin)].
    destruct (Htr t m Hin) as (Hm & th & Ht & Hf & Hs).
    split; [apply step_model_kept, Hm|]. exists th. auto.
  - (* joins *)
    intros t Hin. rewrite Etr, in_app_iff in Hin. destruct Hin as [Hin|Hin].
    + destruct (Hjo t Hin) as (th & Ht & Hf). exists th. auto.
    + apply Hnew in Hin. simpl in Hin.
      apply join_ready_finished in Hin.
      destruct Hin as (_ & _ & th & Ht & Hf). exists th. auto.
  - (* order *)
    rewrite Etr. apply ordered_app; [exact Hor| |].
    + intros t m _. apply Hnw.
    + intros pre suf t m E. exfalso. revert E.
      apply no_transcribe_split, Hnt.
Qed.

Lemma step_Inv2 (w : World) (e : Event) : Inv w -> Inv2 w -> Inv2 (step w e).
Proof.
  destruct e as [|load|t d x|].
  - apply main_step_Inv2; discriminate.
  - apply main_step_Inv2; discriminate.
  - apply thread_step_Inv2.
  - apply main_step_Inv2; discriminate.
Qed.

Lemma run_Inv2 (evs : list Event) (w : World) :
  Inv w -> Inv2 w -> Inv (run w evs) /\ Inv2 (run w evs).
Proof.
  revert w. induction evs as [|e evs IH]; intros w HI HJ; [auto|].
  simpl. apply IH; [apply step_Inv, HI|apply step_Inv2; assumption].
Qed.

Lemma reachable_Inv2 (evs : list Event) : Inv2 (run launched evs).
Proof. apply run_Inv2; [apply launched_Inv|apply launched_Inv2]. Qed.

(** ** The pasteboard *)


(** ** The end of a session *)

(** The world after the join has returned. *)
Lemma join_step_world (w : World) (t : nat) :
  join_ready w = Some t ->
  stop_result w = Some (result (scribe w)) /\
  step w JoinReturns =
    mkWorld (button w) ready (scribe w) (queue w) EventLoop (threads w)
      (trace w ++ Join t ::
         match result (scribe w) with
         | Some s => [ClearContents; SetString s]
         | None => []
         end ++ [SetImage ready]).
Proof.
  unfold stop_result, stop_leave. simpl. intros H. rewrite H.
  unfold_proc. simpl. split; [reflexivity|].
  destruct w as [b st [mo rt ca [s|]] q mp ts tr]; simpl;
    repeat rewrite <- app_assoc; reflexivity.
Qed.




(** ** The order of calls around a transcription *)

(** X3: [transcribe] is called by the record thread itself, on the model
    instance stored in [self.model], after the [with wave.open] block of that
    thread has been left and only for a file larger than [CHUNK] bytes; the
    thread writes no frame afterwards, and the [join] of [stop] on that
    thread has not returned before the call: it returns only after the
    thread has ended, so after the transcription. *)
Theorem transcribe_after_close_before_join
    (evs : list Event) (pre suf : list Obs) (t : nat) (m : Model) :
  let w := run launched evs in
  trace w = pre ++ Transcribe t m :: suf ->
  In (WaveClose t) pre /\ ~ In (WriteFrames t) suf /\ ~ In (Join t) pre /\
  model (scribe w) = Some m /\
  exists th, threads w !! t = Some th /\ finished th = true /\
             (CHUNK < st_size th)%Z.
Proof.
  intros w E.
  pose proof (reachable_Inv2 evs) as [_ _ Htr _ Hor]. fold w in Htr, Hor.
  destruct (Hor pre suf t m E) as (H1 & H2 & H3).
  assert (Hin : In (Transcribe t m) (trace w)).
  { rewrite E. apply in_elt. }
  destruct (Htr t m Hin) as (Hm & th & Ht & Hf & Hs).
  repeat split; try assumption. exists th. auto.
Qed.

Lemma transcribe_after_close_before_join_witness :
  In (WaveClose 0)
     [SetImage ready; SetImage processing; LogDebug "Loading model";
      FromPretrained; SetImage recording; ThreadStart 0;
      LogDebug "Recording"; WaveOpen 0; StreamOpen 0; WriteFrames 0;
      SetImage processing; StreamClose 0; WaveClose 0;
      LogDebug "Transcribing"] /\
  ~ In (Join 0)
     [SetImage ready; SetImage processing; LogDebug "Loading model";
      FromPretrained; SetImage recording; ThreadStart 0;
      LogDebug "Recording"; WaveOpen 0; StreamOpen 0; WriteFrames 0;
      SetImage processing; StreamClose 0; WaveClose 0;
      LogDebug "Transcribing"].
Proof.
  destruct (transcribe_after_close_before_join
              (one_session (Some "hello"))
              [SetImage ready; SetImage processing; LogDebug "Loading model";
               FromPretrained; SetImage recording; ThreadStart 0;
               LogDebug "Recording"; WaveOpen 0; StreamOpen 0; WriteFrames 0;
               SetImage processing; StreamClose 0; WaveClose 0;
               LogDebug "Transcribing"]
              [LogInfo "Result: hello"; Cleanup 0; Join 0; ClearContents;
               SetString "hello"; SetImage ready] 0 7)
    as (H1 & _ & H3 & _); [reflexivity|].
  split; [exact H1|exact H3].
Defined.

(** ** The result field across sessions *)

Lemma unfinished_not_Finished (th : Thread) :
  finished th = false -> pc th <> Finished.
Proof. unfold finished. destruct (pc th); congruence. Qed.

(** As long as thread [t] is the one created last and has not returned
    normally, [self.result] is what it was. *)
Lemma result_kept_step (r0 : option string) (t : nat) (w : World) (e : Event) :
  Inv w -> t < length (threads w) ->
  (length (threads w) = S t -> forall th, threads w !! t = Some th ->
     pc th <> Finished -> result (scribe w) = r0) ->
  length (threads (step w e)) = S t ->
  forall th, threads (step w e) !! t = Some th ->
    pc th <> Finished -> result (scribe (step w e)) = r0.
Proof.
  intros HI Hlt HK.
  assert (Hmain : (forall t0 d x, e <> ThreadStep t0 d x) ->
    length (threads (step w e)) = S t ->
    forall th, threads (step w e) !! t = Some th ->
      pc th <> Finished -> result (scribe (step w e)) = r0).
  { intros Hne. destruct (main_step_frame w e Hne) as (-> & [->|(-> & _)]).
    - exact HK.
    - rewrite length_app. simpl. lia. }
  destruct e as [|load|t1 d x|]; try (apply Hmain; discriminate).
  clear Hmain.
  destruct (step_thread_move w t1 d x)
    as [[-> _]|(th1 & th1' & new & r & Ht1 & Hf1 & Hm & ->)]; [exact HK|].
  simpl. rewrite length_insert. intros Hlen th Hth Hpc.
  destruct HI as [_ _ Ho _ _].
  pose proof (last_thread_Some _ _ (older_finished_alive _ _ _ Ho Ht1 Hf1)) as E.
  assert (t1 = t) as -> by lia.
  rewrite list_lookup_insert_eq in Hth by lia. injection Hth as <-.
  pose proof (HK Hlen th1 Ht1 (unfinished_not_Finished th1 Hf1)) as Hres.
  destruct Hm; simpl in *; try exact Hres; congruence.
Qed.

Lemma result_kept_run (r0 : option string) (t : nat) (evs : list Event)
    (w : World) :
  Inv w -> t < length (threads w) ->
  (length (threads w) = S t -> forall th, threads w !! t = Some th ->
     pc th <> Finished -> result (scribe w) = r0) ->
  length (threads (run w evs)) = S t ->
  forall th, threads (run w evs) !! t = Some th ->
    pc th <> Finished -> result (scribe (run w evs)) = r0.
Proof.
  revert w. induction evs as [|e evs IH]; intros w HI Hlt HK; [exact HK|].
  simpl. apply IH.
  - apply step_Inv, HI.
  - pose proof (step_length_threads w e). lia.
  - apply result_kept_step; assumption.
Qed.

(** X4: [start] does not reset [self.result], and a record thread that ends
    by an exception (the device cannot be opened, [transcribe] raises) never
    assigns it: the [stop] of such a session returns what [self.result] held
    when the start flow of that session began, the result of an earlier
    session if there was one. *)
Theorem stop_returns_stale_result
    (evs0 evs1 : list Event) (load : option Model) (th : Thread) (e : Exn) :
  let w0 := run launched evs0 in
  let w1 := step w0 (RunCallback load) in
  let w2 := run w1 evs1 in
  let t := length (threads w0) in
  length (threads w1) = S t ->
  join_ready w2 = Some t -> threads w2 !! t = Some th -> pc th = Raised e ->
  result (scribe w1) = result (scribe w0) /\
  stop_result w2 = Some (result (scribe w0)).
Proof.
  intros w0 w1 w2 t Hlen Hj Ht Hpc.
  pose proof (reachable_Inv evs0) as HI0. fold w0 in HI0.
  pose proof (step_Inv w0 (RunCallback load) HI0) as HI1. fold w1 in HI1.
  pose proof (run_Inv evs1 w1 HI1) as HI2. fold w2 in HI2.
  destruct (main_step_frame w0 (RunCallback load) ltac:(discriminate))
    as (Hres & _). fold w1 in Hres.
  split; [exact Hres|].
  destruct (join_step_world w2 t Hj) as [-> _]. f_equal.
  destruct (join_ready_finished w2 t Hj) as (_ & Hrt & _).
  destruct HI2 as [_ Hl2 _ _ _]. rewrite Hl2 in Hrt.
  apply last_thread_Some in Hrt.
  apply (result_kept_run (result (scribe w0)) t evs1 w1 HI1) with (th := th).
  - lia.
  - intros _ th1 _ _. exact Hres.
  - exact Hrt.
  - exact Ht.
  - rewrite Hpc. discriminate.
Qed.

Lemma stop_returns_stale_result_witness :
  stop_result
    (run (step (run launched (one_session (Some "hello") ++ [Click]))
               (RunCallback None))
         [ThreadStep 1 false None; Click; RunCallback None]) =
  Some (Some "hello").
Proof.
  refine (proj2 (stop_returns_stale_result
                   (one_session (Some "hello") ++ [Click])
                   [ThreadStep 1 false None; Click; RunCallback None]
                   None (mkThread (Raised DeviceUnavailable) 0)
                   DeviceUnavailable _ _ _ _));
    vm_compute; reflexivity.
Defined.

(** ** A device that cannot be opened *)

Lemma live_count_insert_finished (ts : list Thread) (t : nat) (th : Thread) :
  older_finished ts -> last_thread ts = Some t -> finished th = true ->
  live_count (<[t := th]> ts) = 0.
Proof.
  intros Ho Hl Hf. apply all_finished_live. intros i th' Hi.
  apply last_thread_Some in Hl.
  destruct (decide (i = t)) as [->|Hne].
  - rewrite list_lookup_insert_eq in Hi by lia. congruence.
  - rewrite list_lookup_insert_ne in Hi by congruence.
    apply (Ho i th' Hi). apply lookup_lt_Some in Hi. lia.
Qed.

Lemma not_ready_while_alive (w : World) (t : nat) (th : Thread) :
  Inv w -> threads w !! t = Some th -> finished th = false -> state w <> ready.
Proof.
  intros [_ _ _ Hc _] Ht Hf Hs. unfold control_ok in Hc. rewrite Hs in Hc.
  destruct (main_pc w), (queue w); try contradiction.
  rewrite (Hc t th Ht) in Hf. discriminate.
Qed.

(** X5: when [p.open] raises, the exception ends the record thread only.
    The controller's state is the one it had (never [ready]: the start flow
    has already set [recording], and only the finish flow sets [ready]); no
    record thread is left running; [self.result] and the pasteboard are
    untouched. *)
Theorem device_failure_keeps_state
    (evs : list Event) (t : nat) (th : Thread) (x : option string) :
  let w := run launched evs in
  let w' := step w (ThreadStep t false x) in
  threads w !! t = Some th -> pc th = AtOpen ->
  state w' = state w /\ state w' <> ready /\ main_pc w' = main_pc w /\
  threads w' !! t = Some (mkThread (Raised DeviceUnavailable) 0) /\
  live w' = 0 /\
  result (scribe w') = result (scribe w) /\ clipboard w' = clipboard w /\
  In (Unhandled (Some t) DeviceUnavailable) (trace w').
Proof.
  intros w w' Ht Hpc.
  pose proof (reachable_Inv evs) as HI. fold w in HI.
  pose proof (reachable_Inv2 evs) as [Hth _ _ _ _]. fold w in Hth.
  assert (Hf : finished th = false) by (unfold finished; rewrite Hpc; reflexivity).
  pose proof (not_ready_while_alive w t th HI Ht Hf) as Hnr.
  pose proof (Hth t th Ht) as Hok. unfold thread_ok in Hok. rewrite Hpc in Hok.
  destruct (step_thread_move w t false x)
    as [[_ [E|(th0 & E & Hf0)]]|(th0 & th' & new & r & E & _ & Hm & Hs)];
    [congruence|congruence|].
  rewrite Ht in E. injection E as <-. unfold w'. rewrite Hs. simpl.
  destruct HI as [_ Hl Ho _ _].
  pose proof (older_finished_alive _ _ _ Ho Ht Hf) as Hlast.
  pose proof (lookup_lt_Some _ _ _ Ht) as Hlt.
  destruct th as [p n]. simpl in Hpc, Hok. subst p n.
  inversion Hm; subst.
  repeat split; try assumption.
  - rewrite list_lookup_insert_eq by lia. reflexivity.
  - unfold live. simpl. apply live_count_insert_finished; auto.
  - unfold clipboard. simpl. rewrite clipboard_of_app. simpl.
    apply app_nil_r.
  - rewrite in_app_iff. right. simpl. tauto.
Qed.

Lemma device_failure_keeps_state_witness :
  state (run launched [Click; RunCallback (Some 7); ThreadStep 0 false None])
    = recording /\
  live (run launched [Click; RunCallback (Some 7); ThreadStep 0 false None])
    = 0.
Proof.
  destruct (device_failure_keeps_state [Click; RunCallback (Some 7)] 0
              (mkThread AtOpen 0) None)
    as (H1 & _ & _ & _ & H2 & _); [reflexivity..|].
  split; [exact H1|exact H2].
Defined.

(** ** The finish flow comes to an end *)






(** ** The exceptions that occur *)

Lemma Forall_unhandled_app (a b : list Obs) :
  Forall unhandled_ok a -> Forall unhandled_ok b ->
  Forall unhandled_ok (a ++ b).
Proof. intros Ha Hb. apply Forall_app. split; assumption. Qed.

Ltac unhandled_split :=
  first
    [ exists []; split; [symmetry; apply app_nil_r|constructor]
    | repeat rewrite <- app_assoc; eexists; split; [reflexivity|];
      repeat (constructor; simpl; try exact I; try reflexivity) ].

Lemma main_step_unhandled (w : World) (e : Event) :
  (forall t d x, e <> ThreadStep t d x) -> Inv w ->
  exists new, trace (step w e) = trace w ++ new /\ Forall unhandled_ok new.
Proof.
  intros Hne [Hb Hl _ Hc _].
  destruct e as [|load|t d x|]; [| |destruct (Hne t d x eq_refl)|].
  - main_cases w; unhandled_split.
  - unfold control_ok, in_session, last_thread in *. revert Hb Hl Hc.
    destruct load; main_cases w; simpl; intros; try unhandled_split;
      exfalso; try discriminate; try contradiction;
      destruct q; simpl in *; try contradiction;
      destruct ts; simpl in *; try discriminate; tauto.
  - main_cases w; unhandled_split.
Qed.

Lemma thread_step_unhandled
    (w : World) (t : nat) (d : bool) (x : option string) :
  Inv w ->
  exists new, trace (step w (ThreadStep t d x)) = trace w ++ new /\
              Forall unhandled_ok new.
Proof.
  intros HI.
  destruct (step_thread_move w t d x)
    as [[-> _]|(th & th' & new & r & Ht & Hf & Hm & ->)].
  - exists []. split; [symmetry; apply app_nil_r|constructor].
  - exists new. split; [reflexivity|].
    destruct (alive_in_session w t th HI Ht Hf) as [(_ & Hmo & Hca) _].
    destruct Hm; try contradiction;
      repeat (constructor; simpl; try exact I; auto).
Qed.

(** X7: with [from_pretrained], [p.open] and [transcribe] the only calls of
    the collaborators that raise, the only exceptions that leave a callback
    of the main thread are those of [from_pretrained]; the only ones that
    leave [record] are those of [p.open] and of [transcribe], and they end
    the record thread without reaching the main thread.  In particular no
    attribute is read before it
    is set: [self.capture] (which [__init__] does not assign) is set by
    [start] before the thread reads it, [self.record_thread] is a thread when
    [stop] joins it, and [self.model] is loaded when [transcribe] is
    called. *)
Theorem exceptions_that_occur (evs : list Event) :
  Forall unhandled_ok (trace (run launched evs)).
Proof.
  assert (H : forall w, Inv w -> Forall unhandled_ok (trace w) ->
            Forall unhandled_ok (trace (run w evs))).
  { induction evs as [|e evs IH]; intros w HI HF; [exact HF|].
    simpl. apply IH; [apply step_Inv, HI|].
    assert (exists new, trace (step w e) = trace w ++ new /\
                        Forall unhandled_ok new) as (new & -> & Hnew).
    { destruct e as [|load|t d x|];
        try (apply main_step_unhandled; [discriminate|exact HI]).
      apply thread_step_unhandled, HI. }
    apply Forall_unhandled_app; assumption. }
  apply H; [apply launched_Inv|].
  repeat constructor.
Qed.

(** ** The icon *)

Lemma shown_icon_from_app (cur : option State) (a b : list Obs) :
  shown_icon_from cur (a ++ b) = shown_icon_from (shown_icon_from cur a) b.
Proof.
  revert cur. induction a as [|o a IH]; intros cur; [reflexivity|].
  destruct o; simpl; apply IH.
Qed.

Lemma thread_move_no_image sc t d x th th' new r (cur : option State) :
  thread_move sc t d x th th' new r -> shown_icon_from cur new = cur.
Proof. destruct 1; reflexivity. Qed.

Lemma step_shown_icon (w : World) (e : Event) :
  shown_icon w = Some (state w) ->
  shown_icon (step w e) = Some (state (step w e)).
Proof.
  unfold shown_icon. destruct e as [|load|t d x|].
  - main_cases w; intros H; rewrite ?shown_icon_from_app; simpl;
      rewrite ?H; reflexivity.
  - destruct load; main_cases w; intros H; rewrite ?shown_icon_from_app;
      simpl; rewrite ?H; reflexivity.
  - destruct (step_thread_move w t d x)
      as [[-> _]|(th & th' & new & r & _ & _ & Hm & ->)]; [auto|].
    simpl. intros H. rewrite shown_icon_from_app, H.
    apply (thread_move_no_image _ _ _ _ _ _ _ _ _ Hm).
  - main_cases w; intros H; rewrite ?shown_icon_from_app; simpl;
      rewrite ?H; reflexivity.
Qed.

(** X8: between any two steps the icon shown is the one of [self.state]:
    every assignment of the state comes with the [setImage_] of its icon in
    the same callback, a callback left by an exception has changed neither,
    and a record thread touches neither. *)
Theorem icon_shows_state (evs : list Event) :
  shown_icon (run launched evs) = Some (state (run launched evs)).
Proof.
  assert (H : forall w, shown_icon w = Some (state w) ->
            shown_icon (run w evs) = Some (state (run w evs))).
  { induction evs as [|e evs IH]; intros w Hw; [exact Hw|].
    simpl. apply IH, step_shown_icon, Hw. }
  apply H. reflexivity.
Qed.

(** ** A session that captured audio *)

Lemma long_audio_size (th : Thread) :
  1 <= nchunks th -> (CHUNK < st_size th)%Z.
Proof.
  unfold st_size, CHUNK, WAV_HEADER, CHANNELS, SAMPLE_SIZE. lia.
Qed.

(** When the thread of the session has returned from [record] with a wave
    file larger than [CHUNK], [self.result] is a string and [transcribe] was
    called by that thread. *)
Lemma transcribed_result_step (w : World) (e : Event) :
  Inv w ->
  (forall t th, record_thread (scribe w) = Some t ->
     threads w !! t = Some th -> pc th = Finished -> (CHUNK < st_size th)%Z ->
     exists s m, result (scribe w) = Some s /\ In (Transcribe t m) (trace w)) ->
  forall t th, record_thread (scribe (step w e)) = Some t ->
    threads (step w e) !! t = Some th -> pc th = Finished ->
    (CHUNK < st_size th)%Z ->
    exists s m, result (scribe (step w e)) = Some s /\
                In (Transcribe t m) (trace (step w e)).
Proof.
  intros HI HK.
  assert (Hmain : (forall t0 d x, e <> ThreadStep t0 d x) ->
    forall t th, record_thread (scribe (step w e)) = Some t ->
      threads (step w e) !! t = Some th -> pc th = Finished ->
      (CHUNK < st_size th)%Z ->
      exists s m, result (scribe (step w e)) = Some s /\
                  In (Transcribe t m) (trace (step w e))).
  { intros Hne t th Hrt Ht Hpc Hsz.
    pose proof (step_Inv w e HI) as [_ Hl' _ _ _].
    destruct HI as [_ Hl _ _ _].
    destruct (main_step_trace w e Hne) as (new & Htr & _).
    destruct (main_step_frame w e Hne) as (Hres & [Hts|(Hts & _)]).
    - rewrite Hl', Hts, <- Hl in Hrt. rewrite Hts in Ht.
      destruct (HK t th Hrt Ht Hpc Hsz) as (s & m & Hs & Hin).
      exists s, m. rewrite Hres, Htr, in_app_iff. auto.
    - rewrite Hl', Hts, last_thread_snoc in Hrt. injection Hrt as <-.
      rewrite Hts, lookup_app_r, Nat.sub_diag in Ht by lia.
      injection Ht as <-. discriminate. }
  destruct e as [|load|t1 d x|]; try (apply Hmain; discriminate).
  clear Hmain.
  destruct (step_thread_move w t1 d x)
    as [[-> _]|(th1 & th1' & new & r & Ht1 & Hf1 & Hm & ->)]; [exact HK|].
  simpl. intros t th Hrt Ht Hpc Hsz.
  destruct (alive_in_session w t1 th1 HI Ht1 Hf1) as [_ Hrt1].
  rewrite Hrt1 in Hrt. injection Hrt as <-.
  rewrite list_lookup_insert_eq in Ht
    by (eapply lookup_lt_Some; eassumption).
  injection Ht as <-.
  destruct Hm; simpl in Hpc; try discriminate.
  - unfold st_size in *. simpl in *. lia.
  - exists s, m. split; [reflexivity|].
    rewrite in_app_iff. right. simpl. auto.
Qed.

Lemma transcribed_result_run (evs : list Event) (t : nat) (th : Thread) :
  let w := run launched evs in
  record_thread (scribe w) = Some t -> threads w !! t = Some th ->
  pc th = Finished -> (CHUNK < st_size th)%Z ->
  exists s m, result (scribe w) = Some s /\ In (Transcribe t m) (trace w).
Proof.
  assert (H : forall w0, Inv w0 ->
    (forall t th, record_thread (scribe w0) = Some t ->
       threads w0 !! t = Some th -> pc th = Finished ->
       (CHUNK < st_size th)%Z ->
       exists s m, result (scribe w0) = Some s /\
                   In (Transcribe t m) (trace w0)) ->
    forall t th, record_thread (scribe (run w0 evs)) = Some t ->
      threads (run w0 evs) !! t = Some th -> pc th = Finished ->
      (CHUNK < st_size th)%Z ->
      exists s m, result (scribe (run w0 evs)) = Some s /\
                  In (Transcribe t m) (trace (run w0 evs))).
  { induction evs as [|e evs IH]; intros w0 HI HK; [exact HK|].
    simpl. apply IH; [apply step_Inv, HI|].
    apply transcribed_result_step; assumption. }
  intros w. apply H; [apply launched_Inv|].
  intros t0 th0 Hrt. discriminate.
Qed.

(** X9: when [stop] returns from a session whose thread returned from
    [record] after capturing at least one chunk, [transcribe] was called for
    that session, [stop] returns a string (possibly empty), and the finish
    flow writes exactly that string to the pasteboard and sets the state to
    [ready]. *)
Theorem transcript_is_pasted (evs : list Event) (t : nat) (th : Thread) :
  let w := run launched evs in
  let w' := step w JoinReturns in
  join_ready w = Some t -> threads w !! t = Some th ->
  pc th = Finished -> 1 <= nchunks th ->
  exists s, stop_result w = Some (Some s) /\
            clipboard w' = clipboard w ++ [s] /\ state w' = ready /\
            exists m, In (Transcribe t m) (trace w).
Proof.
  intros w w' Hj Ht Hpc Hn.
  destruct (join_ready_finished w t Hj) as (_ & Hrt & _).
  destruct (transcribed_result_run evs t th Hrt Ht Hpc (long_audio_size th Hn))
    as (s & m & Hs & Hin). fold w in Hs, Hin.
  destruct (join_step_world w t Hj) as [Hstop Hstep]. fold w' in Hstep.
  exists s. rewrite Hs in Hstop, Hstep.
  split; [exact Hstop|]. rewrite Hstep. unfold clipboard. simpl.
  split; [|split; [reflexivity|exists m; exact Hin]].
  rewrite clipboard_of_app. reflexivity.
Qed.

Lemma transcript_is_pasted_witness :
  exists s,
    stop_result
      (run launched
         [Click; RunCallback (Some 7); ThreadStep 0 true None;
          ThreadStep 0 true None; Click; RunCallback None;
          ThreadStep 0 true None; ThreadStep 0 true (Some "hello")]) =
      Some (Some s) /\
    clipboard
      (step (run launched
               [Click; RunCallback (Some 7); ThreadStep 0 true None;
                ThreadStep 0 true None; Click; RunCallback None;
                ThreadStep 0 true None; ThreadStep 0 true (Some "hello")])
            JoinReturns) =
      clipboard
        (run launched
           [Click; RunCallback (Some 7); ThreadStep 0 true None;
            ThreadStep 0 true None; Click; RunCallback None;
            ThreadStep 0 true None; ThreadStep 0 true (Some "hello")]) ++ [s].
Proof.
  destruct (transcript_is_pasted
              [Click; RunCallback (Some 7); ThreadStep 0 true None;
               ThreadStep 0 true None; Click; RunCallback None;
               ThreadStep 0 true None; ThreadStep 0 true (Some "hello")]
              0 (mkThread Finished 1))
    as (s & H1 & H2 & _); [reflexivity|reflexivity|reflexivity|simpl; lia|].
  exists s. split; [exact H1|exact H2].
Defined.

(** ** What a record thread releases *)







(** ** The queue of [callAfter] *)

(** X11: at most one flow is queued at any time, and only while the state is
    [processing] and the main thread is in the event loop: clicks, however
    fast, never queue a second start or finish flow. *)
Theorem one_flow_pending (evs : list Event) :
  let w := run launched evs in
  length (queue w) <= 1 /\
  (queue w <> [] -> state w = processing /\ main_pc w = EventLoop).
Proof.
  intros w. pose proof (reachable_Inv evs) as [_ _ _ Hc _]. fold w in Hc.
  unfold control_ok in Hc.
  destruct (state w), (main_pc w), (queue w) as [|[|] [|]];
    try contradiction; simpl; split; auto; congruence.
Qed.
